(** * creme.utils.math: sparse vector and matrix arithmetic on dicts

    A shallow embedding of [creme/utils/math.py].

    - Numbers are exact reals ([R]), the arithmetic the functions have on
      Python's [int] and [Fraction] values.  Where a property turns on the
      rounding or the underflow of [float], the function is given a second
      time on IEEE 754 binary64 numbers, in module [Float64].
    - A [dict] is the list of its items in insertion order, the order that
      [items()], [keys()], [values()] and [itertools.product] observe.  Row
      and column keys share one type: [dotvecmat] looks a row key up among
      column keys, and the matrices of [sherman_morrison] are square.
    - A call that can raise returns in [option]: true division by zero,
      [min] or [max] of an empty sequence, subscripting with a missing key.
    - A function that mutates its argument takes the dict and returns the
      dict it leaves; a loop over the items of the dict being mutated visits
      the entries of the live dict by position.

    - The order in which a [set] is iterated is not specified by Python;
      [minkowski_distance] takes the enumeration of its key set as an
      argument, and its exponent [p] is a natural number.

    [norm] delegates to [numpy.linalg.norm] and is left out. *)

From stdpp Require Import base decidable option list numbers strings.
From Stdlib Require Import Reals Lra Lia Floats.

(** ** Python dictionaries, in insertion order *)

Module Dict.
Section dict.
Context {K : Type} `{EqDecision K} {V : Type}.

(** [d.get(k)]: the value of the entry whose key equals [k]. *)
Fixpoint get (d : list (K * V)) (k : K) : option V :=
  match d with
  | [] => None
  | (k', v) :: d' => if decide (k' = k) then Some v else get d' k
  end.

(** [d.get(k, dflt)]. *)
Definition get_or (d : list (K * V)) (k : K) (dflt : V) : V :=
  default dflt (get d k).

(** [d[k] = v]: an existing entry keeps its place, a new one goes last. *)
Fixpoint setitem (d : list (K * V)) (k : K) (v : V) : list (K * V) :=
  match d with
  | [] => [(k, v)]
  | (k', v') :: d' =>
      if decide (k' = k) then (k', v) :: d' else (k', v') :: setitem d' k v
  end.

Definition keys (d : list (K * V)) : list K := d.*1.
Definition values (d : list (K * V)) : list V := d.*2.

(** The invariant of every Python dict: no key occurs twice. *)
Definition wf (d : list (K * V)) : Prop := NoDup (keys d).
End dict.
End Dict.

Abbreviation dict K V := (list (K * V)) (only parsing).

(** [itertools.product(xs, ys)]: the rightmost iterable advances fastest. *)
Definition product {A B : Type} (xs : list A) (ys : list B) : list (A * B) :=
  x ← xs; (λ y, (x, y)) <$> ys.

Local Open Scope R_scope.

(** [sum(iterable)] and [functools.reduce(operator.mul, iterable, 1)]. *)
Definition py_sum (l : list R) : R := fold_left Rplus l 0.
Definition prod (l : list R) : R := fold_left Rmult l 1.

(** [a / b] on Python numbers. *)
Definition truediv (a b : R) : option R :=
  if Req_dec_T b 0 then None else Some (a / b).

(** [max(iterable)] and the two-argument [min(a, b)], [max(a, b)]: the first
    argument is kept unless a later one compares strictly better. *)
Definition max_of (l : list R) : option R :=
  match l with
  | [] => None
  | v :: l' => Some (fold_left (λ m w, if Rgt_dec w m then w else m) l' v)
  end.
Definition min2 (a b : R) : R := if Rlt_dec b a then b else a.
Definition max2 (a b : R) : R := if Rgt_dec b a then b else a.

(** A [for] loop whose body may raise. *)
Fixpoint foldM {A B : Type} (f : B → A → option B) (b : B) (l : list A) : option B :=
  match l with
  | [] => Some b
  | a :: l' => b' ← f b a; foldM f b' l'
  end.

Section sparse.
Context {K : Type} `{EqDecision K}.

Definition dotvecmat_step (C : dict K R) (p : (K * R) * ((K * K) * R)) : dict K R :=
  let '((i, xi), ((j, k), ai)) := p in
  if decide (i ≠ j) then C
  else Dict.setitem C k (Dict.get_or C j 0 + xi * ai).

Definition dotvecmat (x : dict K R) (A : dict (K * K) R) : dict K R :=
  fold_left dotvecmat_step (product x A) [].

Definition matmul2d_step (C : dict (K * K) R)
    (p : ((K * K) * R) * ((K * K) * R)) : dict (K * K) R :=
  let '(((i, k1), x), ((k2, j), y)) := p in
  if decide (k1 ≠ k2) then C
  else Dict.setitem C (i, j) (Dict.get_or C (i, j) 0 + x * y).

Definition matmul2d (A B : dict (K * K) R) : dict (K * K) R :=
  fold_left matmul2d_step (product A B) [].

Definition outer (u v : dict K R) : dict (K * K) R :=
  fold_left (λ C '((ki, vi), (kj, vj)), Dict.setitem C (ki, kj) (vi * vj))
    (product u v) [].

Definition dot (x y : dict K R) : R :=
  if (length x <? length y)%nat
  then py_sum ((λ '(i, xi), xi * Dict.get_or y i 0) <$> x)
  else py_sum ((λ '(i, yi), Dict.get_or x i 0 * yi) <$> y).

(** [min(xs, key=len)]: the first argument of least length; raises on [()]. *)
Definition min_by_len (xs : list (dict K R)) : option (dict K R) :=
  match xs with
  | [] => None
  | x :: xs' =>
      Some (fold_left (λ m y, if (length y <? length m)%nat then y else m) xs' x)
  end.

Definition chain_dot (xs : list (dict K R)) : option R :=
  keys ← min_by_len xs;
  Some (py_sum ((λ i, prod ((λ x, Dict.get_or x i 0) <$> xs)) <$> Dict.keys keys)).

(** The loop of [sherman_morrison]; [A_inv] is the dict being mutated. *)
Definition sherman_morrison_step (den : R) (A_inv : dict (K * K) R)
    (kv : (K * K) * R) : option (dict (K * K) R) :=
  let '(k, v) := kv in
  q ← truediv v den;
  Some (Dict.setitem A_inv k (Dict.get_or A_inv k 0 - q)).

Definition sherman_morrison (A_inv : dict (K * K) R) (u v : dict K R)
    : option (dict (K * K) R) :=
  let den := 1 + dot (dotvecmat u A_inv) v in
  foldM (sherman_morrison_step den) A_inv
    (matmul2d (matmul2d A_inv (outer u v)) A_inv).

(** First loop of [softmax], at entry [n] of the live dict:
    [y_pred[c] = math.exp(p - maximum); total += y_pred[c]]. *)
Definition softmax_exp_step (maximum : R) (st : dict K R * R) (n : nat)
    : option (dict K R * R) :=
  let '(y_pred, total) := st in
  '(c, p) ← y_pred !! n;
  let y_pred := Dict.setitem y_pred c (exp (p - maximum)) in
  e ← Dict.get y_pred c;
  Some (y_pred, total + e).

(** Second loop of [softmax], at entry [n]: [y_pred[c] /= total]. *)
Definition softmax_div_step (total : R) (y_pred : dict K R) (n : nat)
    : option (dict K R) :=
  '(c, _) ← y_pred !! n;
  e ← Dict.get y_pred c;
  q ← truediv e total;
  Some (Dict.setitem y_pred c q).

Definition softmax (y_pred : dict K R) : option (dict K R) :=
  match y_pred with
  | [] => Some y_pred
  | _ =>
      maximum ← max_of (Dict.values y_pred);
      '(y_pred, total) ←
        foldM (softmax_exp_step maximum) (y_pred, 0) (seq 0 (length y_pred));
      foldM (softmax_div_step total) y_pred (seq 0 (length y_pred))
  end.
End sparse.

Definition sigmoid (x : R) : option R :=
  if Rlt_dec x (-30) then Some 0
  else if Rgt_dec x 30 then Some 1
  else truediv 1 (1 + exp (- x)).

Definition clamp (x minimum maximum : R) : R :=
  max2 (min2 x maximum) minimum.

(** ** The functions on binary64 floats

    [dot], [chain_dot] and [softmax] once more, on Python's [float]: the same
    code, every addition, multiplication and division being the rounded one
    of IEEE 754 binary64 (Rocq's primitive floats).  [sum] adds from left to
    right, as the built-in does before Python 3.12. *)

Module Float64.
Local Open Scope float_scope.

Definition py_sum (l : list float) : float := fold_left PrimFloat.add l 0.
Definition prod (l : list float) : float := fold_left PrimFloat.mul l 1.

(** [a / b]: a zero divisor, of either sign, raises. *)
Definition truediv (a b : float) : option float :=
  if b =? 0 then None else Some (a / b).

Definition max_of (l : list float) : option float :=
  match l with
  | [] => None
  | v :: l' => Some (fold_left (λ m w, if m <? w then w else m) l' v)
  end.

(** [math.exp], where binary64 leaves the C library no choice: [exp(0)] is
    1, and below -746 the exact value is under half the least positive
    number [2^-1074], so that the result is 0.0 (an underflow does not
    raise).  Elsewhere the last bit depends on the platform and the model
    gives no value. *)
Definition math_exp (x : float) : option float :=
  if x =? 0 then Some 1
  else if x <? -746 then Some 0
  else None.

Section sparse.
Context {K : Type} `{EqDecision K}.

Definition dot (x y : dict K float) : float :=
  if (length x <? length y)%nat
  then py_sum ((λ '(i, xi), xi * Dict.get_or y i 0) <$> x)
  else py_sum ((λ '(i, yi), Dict.get_or x i 0 * yi) <$> y).

Definition min_by_len (xs : list (dict K float)) : option (dict K float) :=
  match xs with
  | [] => None
  | x :: xs' =>
      Some (fold_left (λ m y, if (length y <? length m)%nat then y else m) xs' x)
  end.

Definition chain_dot (xs : list (dict K float)) : option float :=
  keys ← min_by_len xs;
  Some (py_sum ((λ i, prod ((λ x, Dict.get_or x i 0) <$> xs)) <$> Dict.keys keys)).

Definition softmax_exp_step (maximum : float) (st : dict K float * float)
    (n : nat) : option (dict K float * float) :=
  let '(y_pred, total) := st in
  '(c, p) ← y_pred !! n;
  e ← math_exp (p - maximum);
  let y_pred := Dict.setitem y_pred c e in
  e ← Dict.get y_pred c;
  Some (y_pred, total + e).

Definition softmax_div_step (total : float) (y_pred : dict K float) (n : nat)
    : option (dict K float) :=
  '(c, _) ← y_pred !! n;
  e ← Dict.get y_pred c;
  q ← truediv e total;
  Some (Dict.setitem y_pred c q).

Definition softmax (y_pred : dict K float) : option (dict K float) :=
  match y_pred with
  | [] => Some y_pred
  | _ =>
      maximum ← max_of (Dict.values y_pred);
      '(y_pred, total) ←
        foldM (softmax_exp_step maximum) (y_pred, 0) (seq 0 (length y_pred));
      foldM (softmax_div_step total) y_pred (seq 0 (length y_pred))
  end.
End sparse.
End Float64.


(** [minkowski_distance(a, b, p)], the sum running over the keys in the
    order [ks]. *)
Definition minkowski_distance {K : Type} `{EqDecision K}
    (ks : list K) (a b : dict K R) (p : nat) : R :=
  py_sum ((λ k, Rabs (Dict.get_or a k 0 - Dict.get_or b k 0) ^ p) <$> ks).

(** ** Definitions used to state and check the properties *)

(** The sum and the product of a list, as the mathematical [Σ] and [Π]. *)
Definition Rsum (l : list R) : R := foldr Rplus 0 l.
Definition Rprod (l : list R) : R := foldr Rmult 1 l.

(** The entry the contract gives to key [k] of [dotvecmat x A]: the sum of
    [x[i] * A[(i, k)]] over the entries [(i, k)] of [A] whose row index [i]
    is a key of [x]. *)
Definition dotvecmat_entry {K : Type} `{EqDecision K}
    (x : dict K R) (A : dict (K * K) R) (k : K) : R :=
  Rsum (omap (λ e : (K * K) * R,
                let '((i, k'), a) := e in
                if decide (k' = k) then xi ← Dict.get x i; Some (xi * a)
                else None) A).

(** Evaluation of closed calls: unfold everything but the real arithmetic. *)
Ltac py_eval :=
  cbv -[Rplus Rmult Rminus Rdiv Ropp Rinv IZR exp Rsum
        Req_dec_T Rlt_dec Rgt_dec Rle Rlt].

(** What one pair of the cross product adds to the entry [k] of [dotvecmat]. *)
Definition dotvecmat_hit {K : Type} `{EqDecision K}
    (k : K) (p : (K * R) * ((K * K) * R)) : option R :=
  let '((i, xi), ((j, k'), a)) := p in
  if decide (i = j ∧ k' = k) then Some (xi * a) else None.

(** A matrix with entries on its diagonal only. *)
Definition diagonal {K : Type} (A : dict (K * K) R) : Prop :=
  Forall (λ e, e.1.1 = e.1.2) A.

(** What one pair of the cross product adds to the entry [key]. *)
Definition matmul2d_hit {K : Type} `{EqDecision K}
    (key : K * K) (p : ((K * K) * R) * ((K * K) * R)) : option R :=
  let '(((i, k1), x), ((k2, j), y)) := p in
  if decide (k1 = k2 ∧ (i, j) = key) then Some (x * y) else None.

(** The inner indices [k] shared by row [i] of [A] and column [j] of [B],
    in the order of [A]. *)
Definition inner_keys {K : Type} `{EqDecision K}
  (A B : dict (K * K) R) (i j : K) : list K :=
  omap (λ a : (K * K) * R,
          let '((i', k), _) := a in
          if decide (i' = i)
          then match Dict.get B (k, j) with Some _ => Some k | None => None end
          else None) A.

(** The dicts of the docstring examples. *)
Definition A_doc : list ((Z * Z) * R) :=
  [((0, 0)%Z, 2); ((0, 1)%Z, 0); ((0, 2)%Z, 4);
   ((1, 0)%Z, 5); ((1, 1)%Z, 6); ((1, 2)%Z, 0)].

Definition B_doc : list ((Z * Z) * R) :=
  [((0, 0)%Z, 1); ((0, 1)%Z, 1); ((0, 2)%Z, 0); ((0, 3)%Z, 0);
   ((1, 0)%Z, 2); ((1, 1)%Z, 0); ((1, 2)%Z, 1); ((1, 3)%Z, 3);
   ((2, 0)%Z, 4); ((2, 1)%Z, 0); ((2, 2)%Z, 0); ((2, 3)%Z, 0)].

Definition A_inv_doc : list ((Z * Z) * R) :=
  [((0, 0)%Z, 2 / 10); ((1, 1)%Z, 1); ((2, 2)%Z, 1)].

Definition scores_doc : list (string * R) := [("a", 1); ("b", 2); ("c", 3)].

(** ** Facts about dictionaries *)

Section dict_facts.
Context {K : Type} `{EqDecision K} {V : Type}.
Implicit Types (d : list (K * V)) (k : K) (v : V).

Lemma get_setitem_eq d k v : Dict.get (Dict.setitem d k v) k = Some v.
Proof.
  induction d as [|[k' v'] d IH]; simpl.
  - by rewrite decide_True.
  - destruct (decide (k' = k)) as [->|Hne]; simpl.
    + by rewrite decide_True.
    + by rewrite decide_False.
Qed.

Lemma get_setitem_ne d k k' v :
  k ≠ k' → Dict.get (Dict.setitem d k v) k' = Dict.get d k'.
Proof.
  intros Hne. induction d as [|[k0 v0] d IH]; simpl.
  - by rewrite decide_False.
  - destruct (decide (k0 = k)) as [->|Hk]; simpl.
    + by rewrite !decide_False.
    + by rewrite IH.
Qed.

Lemma get_setitem d k k' v :
  Dict.get (Dict.setitem d k v) k' =
    if decide (k = k') then Some v else Dict.get d k'.
Proof.
  destruct (decide (k = k')) as [->|Hne];
    [apply get_setitem_eq | by apply get_setitem_ne].
Qed.

Lemma get_None d k : Dict.get d k = None ↔ k ∉ Dict.keys d.
Proof.
  unfold Dict.keys. induction d as [|[k' v'] d IH]; simpl.
  - split; [intros _; apply not_elem_of_nil | done].
  - rewrite not_elem_of_cons. destruct (decide (k' = k)) as [->|Hne].
    + split; [done | by intros [? _]].
    + rewrite IH. split; [by intros ?; split; [congruence|] | by intros [_ ?]].
Qed.

Lemma get_is_Some d k : is_Some (Dict.get d k) ↔ k ∈ Dict.keys d.
Proof.
  rewrite <- not_eq_None_Some, get_None.
  split; [apply dec_stable | by intros ? ?].
Qed.

Lemma get_elem_of d k v : Dict.get d k = Some v → (k, v) ∈ d.
Proof.
  induction d as [|[k' v'] d IH]; simpl; [done|].
  destruct (decide (k' = k)) as [->|Hne].
  - intros [= ->]. apply list_elem_of_here.
  - intros Hg. apply list_elem_of_further. auto.
Qed.

Lemma get_cons_fresh d k v k' :
  k ∉ Dict.keys d → k' ∈ Dict.keys d → Dict.get ((k, v) :: d) k' = Dict.get d k'.
Proof.
  intros Hk Hk'. simpl. rewrite decide_False; [done|]. by intros ->.
Qed.

Lemma keys_setitem_present d k v :
  k ∈ Dict.keys d → Dict.keys (Dict.setitem d k v) = Dict.keys d.
Proof.
  unfold Dict.keys. induction d as [|[k' v'] d IH]; csimpl.
  - by intros ?%elem_of_nil.
  - destruct (decide (k' = k)) as [->|Hne]; csimpl; [done|].
    intros [?|Hin]%elem_of_cons; [congruence|]. by rewrite IH.
Qed.

Lemma keys_setitem_absent d k v :
  k ∉ Dict.keys d → Dict.keys (Dict.setitem d k v) = Dict.keys d ++ [k].
Proof.
  unfold Dict.keys. induction d as [|[k' v'] d IH]; csimpl; [done|].
  rewrite not_elem_of_cons. intros [Hne Hin].
  rewrite decide_False by done. csimpl. by rewrite IH.
Qed.

Lemma wf_setitem d k v : Dict.wf d → Dict.wf (Dict.setitem d k v).
Proof.
  unfold Dict.wf. intros Hd.
  destruct (decide (k ∈ Dict.keys d)) as [Hin|Hin].
  - by rewrite keys_setitem_present.
  - rewrite keys_setitem_absent by done.
    apply NoDup_app. split_and!; [done | | apply NoDup_singleton].
    intros x Hx ->%list_elem_of_singleton. done.
Qed.

(** Assigning to a key that sits after a prefix not holding it. *)
Lemma setitem_middle (pre post : list (K * V)) k v v' :
  k ∉ Dict.keys pre →
  Dict.setitem (pre ++ (k, v) :: post) k v' = pre ++ (k, v') :: post.
Proof.
  unfold Dict.keys. induction pre as [|[k0 v0] pre IH]; simpl.
  - intros _. by rewrite decide_True.
  - rewrite not_elem_of_cons. intros [Hne Hin].
    rewrite decide_False by done. by rewrite IH.
Qed.

Lemma get_middle (pre post : list (K * V)) k v :
  k ∉ Dict.keys pre → Dict.get (pre ++ (k, v) :: post) k = Some v.
Proof.
  unfold Dict.keys. induction pre as [|[k0 v0] pre IH]; simpl.
  - intros _. by rewrite decide_True.
  - rewrite not_elem_of_cons. intros [Hne Hin].
    rewrite decide_False by done. by apply IH.
Qed.
End dict_facts.

(** ** Sums and products over lists *)

Lemma fold_left_Rplus l a : fold_left Rplus l a = a + Rsum l.
Proof.
  revert a. induction l as [|x l IH]; intros a; simpl; [lra|].
  rewrite IH. lra.
Qed.

Lemma py_sum_Rsum l : py_sum l = Rsum l.
Proof. unfold py_sum. rewrite fold_left_Rplus. lra. Qed.

Lemma fold_left_Rmult l a : fold_left Rmult l a = a * Rprod l.
Proof.
  revert a. induction l as [|x l IH]; intros a; simpl; [lra|].
  rewrite IH. lra.
Qed.

Lemma prod_Rprod l : prod l = Rprod l.
Proof. unfold prod. rewrite fold_left_Rmult. lra. Qed.

Lemma Rsum_perm l1 l2 : l1 ≡ₚ l2 → Rsum l1 = Rsum l2.
Proof. induction 1; simpl; lra. Qed.

Lemma Rprod_perm l1 l2 : l1 ≡ₚ l2 → Rprod l1 = Rprod l2.
Proof. induction 1; simpl; [lra | congruence | lra | congruence]. Qed.

Lemma Rprod_zero l : 0 ∈ l → Rprod l = 0.
Proof.
  induction l as [|x l IH]; simpl; [by intros ?%elem_of_nil|].
  intros [<-|Hin]%elem_of_cons; [lra|]. rewrite IH by done. lra.
Qed.

(** ** [matmul2d] *)

Section matmul2d_facts.
Context {K : Type} `{EqDecision K}.
Implicit Types (A B C : list ((K * K) * R)) (i j k : K).

Lemma matmul2d_fold_get l C key :
  Dict.get (fold_left matmul2d_step l C) key =
    match omap (matmul2d_hit key) l with
    | [] => Dict.get C key
    | hs => Some (Dict.get_or C key 0 + Rsum hs)
    end.
Proof.
  revert C. induction l as [|[[[i k1] x] [[k2 j] y]] l IH]; intros C; [done|].
  csimpl. rewrite IH. clear IH.
  destruct (decide (k1 ≠ k2)) as [Hne|Heq%dec_stable].
  { rewrite decide_False by tauto. done. }
  subst k2. destruct (decide ((i, j) = key)) as [<-|Hkey].
  - rewrite decide_True by done. unfold Dict.get_or.
    rewrite get_setitem_eq. csimpl.
    destruct (omap _ l) as [|h hs]; simpl; f_equal; lra.
  - rewrite decide_False by tauto. unfold Dict.get_or.
    by rewrite get_setitem_ne.
Qed.

Lemma matmul2d_wf A B : Dict.wf (matmul2d A B).
Proof.
  unfold matmul2d. generalize (product A B). intros l.
  assert (Dict.wf (@nil ((K * K) * R))) as Hnil by apply NoDup_nil_2.
  revert Hnil. generalize (@nil ((K * K) * R)).
  induction l as [|[[[i k1] x] [[k2 j] y]] l IH]; intros C HC; [done|].
  simpl. apply IH. destruct (decide (k1 ≠ k2)); [done|]. by apply wf_setitem.
Qed.

Lemma product_cons {X Y : Type} (a : X) (l : list X) (l' : list Y) :
  product (a :: l) l' = ((λ b, (a, b)) <$> l') ++ product l l'.
Proof. done. Qed.

Lemma elem_of_inner_keys A B i j k :
  k ∈ inner_keys A B i j ↔
    is_Some (Dict.get A (i, k)) ∧ is_Some (Dict.get B (k, j)).
Proof.
  unfold inner_keys. rewrite list_elem_of_omap, get_is_Some.
  unfold Dict.keys. rewrite list_elem_of_fmap. split.
  - intros ([[i' k'] x] & Hin & Hf).
    destruct (decide (i' = i)) as [->|]; [|done].
    destruct (Dict.get B (k', j)) eqn:HB; [|done].
    injection Hf as ->. split; [by exists ((i, k), x) | by rewrite HB].
  - intros [([[i' k'] x] & [= -> ->] & Hin) [y HB]].
    exists ((i', k'), x). split; [done|].
    by rewrite decide_True, HB.
Qed.

Lemma NoDup_inner_keys A B i j : Dict.wf A → NoDup (inner_keys A B i j).
Proof.
  unfold Dict.wf, Dict.keys.
  induction A as [|[[i' k] x] A IH]; csimpl; [intros _; apply NoDup_nil_2|].
  intros [Hfresh HA]%NoDup_cons. specialize (IH HA).
  destruct (decide (i' = i)) as [->|]; [|done].
  destruct (Dict.get B (k, j)); [|done].
  apply NoDup_cons. split; [|done].
  intros [HinA _]%elem_of_inner_keys. by apply get_is_Some in HinA.
Qed.

Lemma hits_row B i j i' k x :
  Dict.wf B →
  omap (matmul2d_hit (i, j)) ((λ b, (((i', k), x), b)) <$> B) =
    if decide (i' = i)
    then match Dict.get B (k, j) with Some y => [x * y] | None => [] end
    else [].
Proof.
  unfold Dict.wf, Dict.keys.
  induction B as [|[[k2 j'] y] B IH]; csimpl; [by case_decide|].
  intros [Hfresh HB]%NoDup_cons. rewrite (IH HB). clear IH.
  destruct (decide (k = k2 ∧ (i', j') = (i, j))) as [[-> [= -> ->]]|Hno].
  - rewrite !decide_True by done.
    apply (get_None (V:=R)) in Hfresh. by rewrite Hfresh.
  - destruct (decide (i' = i)) as [->|]; [|done].
    rewrite decide_False; [done|]. intros [= -> ->]. by apply Hno.
Qed.

Lemma hits_product A B i j :
  Dict.wf A → Dict.wf B →
  omap (matmul2d_hit (i, j)) (product A B) =
    (λ k, Dict.get_or A (i, k) 0 * Dict.get_or B (k, j) 0)
      <$> inner_keys A B i j.
Proof.
  intros HA HB. induction A as [|[[i' k] x] A IH]; [done|].
  apply NoDup_cons in HA as [Hfresh HA]. specialize (IH HA).
  rewrite product_cons, omap_app, hits_row, IH by done. clear IH.
  assert ((λ k0, Dict.get_or (((i', k), x) :: A) (i, k0) 0 * Dict.get_or B (k0, j) 0)
            <$> inner_keys A B i j
          = (λ k0, Dict.get_or A (i, k0) 0 * Dict.get_or B (k0, j) 0)
            <$> inner_keys A B i j) as Htail.
  { apply Forall_fmap_ext, Forall_forall.
    intros k0 [HinA _]%elem_of_inner_keys. apply get_is_Some in HinA.
    unfold Dict.get_or. by rewrite (get_cons_fresh A (i', k) x (i, k0)). }
  unfold inner_keys at 2. csimpl. fold (inner_keys A B i j).
  destruct (decide (i' = i)) as [->|]; [|by rewrite Htail].
  destruct (Dict.get B (k, j)) as [y|] eqn:Hy; [|by rewrite Htail].
  csimpl. rewrite Htail. f_equal.
  unfold Dict.get_or. simpl. by rewrite decide_True, Hy.
Qed.

Lemma matmul2d_get A B i j :
  Dict.wf A → Dict.wf B →
  Dict.get (matmul2d A B) (i, j) =
    match inner_keys A B i j with
    | [] => None
    | ks => Some (Rsum ((λ k, Dict.get_or A (i, k) 0 * Dict.get_or B (k, j) 0) <$> ks))
    end.
Proof.
  intros HA HB. unfold matmul2d.
  rewrite matmul2d_fold_get, hits_product by done.
  destruct (inner_keys A B i j); csimpl; [done|].
  f_equal. unfold Dict.get_or at 1. simpl. lra.
Qed.
End matmul2d_facts.

(** C5.  In [matmul2d A B], the entry [(i, j)] is present exactly when some
    inner index [k] has both [A[(i, k)]] and [B[(k, j)]] present, and it then
    holds the sum of [A[(i, k)] * B[(k, j)]] over all such [k] (given as any
    duplicate-free list [ks] of them), whatever that sum is. *)
Theorem matmul2d_entry {K : Type} `{EqDecision K}
    (A B : list ((K * K) * R)) (i j : K) (ks : list K) :
  Dict.wf A → Dict.wf B → NoDup ks →
  (∀ k, k ∈ ks ↔ is_Some (Dict.get A (i, k)) ∧ is_Some (Dict.get B (k, j))) →
  Dict.get (matmul2d A B) (i, j) =
    match ks with
    | [] => None
    | _ => Some (Rsum ((λ k, Dict.get_or A (i, k) 0 * Dict.get_or B (k, j) 0) <$> ks))
    end.
Proof.
  intros HA HB Hks Hin. rewrite matmul2d_get by done.
  assert (inner_keys A B i j ≡ₚ ks) as Hperm.
  { apply NoDup_Permutation; [by apply NoDup_inner_keys | done |].
    intros k. by rewrite elem_of_inner_keys, Hin. }
  destruct ks as [|k0 ks].
  - by apply Permutation_nil_r in Hperm as ->.
  - destruct (inner_keys A B i j) as [|k1 ks1] eqn:Hik.
    + by apply Permutation_nil_l in Hperm.
    + f_equal. apply Rsum_perm. by apply fmap_Permutation.
Qed.

(** ** [sherman_morrison] *)

Section sherman_morrison_facts.
Context {K : Type} `{EqDecision K}.
Implicit Types (A : list ((K * K) * R)) (k : K * K).

Lemma truediv_Some a b : b ≠ 0 → truediv a b = Some (a / b).
Proof. intros Hb. unfold truediv. by destruct (Req_dec_T b 0). Qed.

Lemma truediv_None a b : truediv a b = None ↔ b = 0.
Proof. unfold truediv. by destruct (Req_dec_T b 0). Qed.

(** The update loop over a correction with distinct keys and a non-zero
    denominator: every key of the correction is rewritten once, from the
    value it had on entry, and the other keys are left alone. *)
Lemma sherman_morrison_loop den (corr : list ((K * K) * R)) A :
  den ≠ 0 → Dict.wf corr →
  ∃ A', foldM (sherman_morrison_step den) A corr = Some A' ∧
    ∀ k, Dict.get A' k =
      match Dict.get corr k with
      | Some c => Some (Dict.get_or A k 0 - c / den)
      | None => Dict.get A k
      end.
Proof.
  intros Hden. unfold Dict.wf, Dict.keys. revert A.
  induction corr as [|[k0 c0] corr IH]; intros A Hwf; csimpl.
  { by exists A. }
  apply NoDup_cons in Hwf as [Hfresh Hwf]. simpl in Hfresh.
  rewrite truediv_Some by done. csimpl.
  destruct (IH (Dict.setitem A k0 (Dict.get_or A k0 0 - c0 / den)) Hwf)
    as (A' & -> & Hget).
  exists A'. split; [done|]. intros k. rewrite Hget. clear Hget.
  destruct (decide (k0 = k)) as [<-|Hne].
  - apply (get_None (V:=R)) in Hfresh. by rewrite Hfresh, get_setitem_eq.
  - unfold Dict.get_or. by rewrite get_setitem_ne.
Qed.

Lemma sherman_morrison_loop_zero (corr : list ((K * K) * R)) A :
  foldM (sherman_morrison_step 0) A corr =
    match corr with [] => Some A | _ => None end.
Proof.
  destruct corr as [|[k0 c0] corr]; csimpl; [done|].
  by rewrite (proj2 (truediv_None c0 0)).
Qed.
End sherman_morrison_facts.

(** C2.  Whenever [sherman_morrison A_inv u v] returns, every key of the
    correction [matmul2d (matmul2d A_inv (outer u v)) A_inv] holds
    [A_inv.get(k, 0) - correction[k] / den] (an absent key is created, from 0),
    with [den = 1 + dot (dotvecmat u A_inv) v], and every other key holds what
    it held in the initial [A_inv].  The call fails to return only on a
    division by [den = 0], which needs a non-empty correction. *)
Theorem sherman_morrison_update {K : Type} `{EqDecision K}
    (A_inv : list ((K * K) * R)) (u v : list (K * R)) :
  let den := 1 + dot (dotvecmat u A_inv) v in
  let correction := matmul2d (matmul2d A_inv (outer u v)) A_inv in
  match sherman_morrison A_inv u v with
  | Some A' =>
      (correction = [] ∨ den ≠ 0) ∧
      (∀ k c, Dict.get correction k = Some c →
         Dict.get A' k = Some (Dict.get_or A_inv k 0 - c / den)) ∧
      (∀ k, Dict.get correction k = None → Dict.get A' k = Dict.get A_inv k)
  | None => den = 0 ∧ correction ≠ []
  end.
Proof.
  intros den correction. unfold sherman_morrison. fold den correction.
  destruct (Req_dec_T den 0) as [Hz|Hnz].
  - rewrite Hz, sherman_morrison_loop_zero.
    destruct correction as [|kc corr]; [|done].
    split_and!; [by left | done | done].
  - destruct (sherman_morrison_loop den correction A_inv Hnz) as (A' & -> & Hget).
    { apply matmul2d_wf. }
    split_and!; [by right | |]; intros k; rewrite Hget.
    + by intros c ->.
    + by intros ->.
Qed.

(** ** [dot] and [chain_dot] *)

Section dot_facts.
Context {K : Type} `{EqDecision K}.
Implicit Types (x y : list (K * R)) (xs ys : list (list (K * R))) (i : K).

Lemma get_elem_of_wf {V : Type} (d : list (K * V)) i v :
  Dict.wf d → (i, v) ∈ d → Dict.get d i = Some v.
Proof.
  unfold Dict.wf, Dict.keys. induction d as [|[k' v'] d IH]; csimpl.
  { by intros _ ?%elem_of_nil. }
  intros [Hfresh Hd]%NoDup_cons [[= -> ->]|Hin]%elem_of_cons.
  - by rewrite decide_True.
  - rewrite decide_False; [by apply IH|].
    intros ->. apply Hfresh. apply list_elem_of_fmap. by exists (i, v).
Qed.

Lemma get_or_absent {V : Type} (d : list (K * V)) i dflt :
  i ∉ Dict.keys d → Dict.get_or d i dflt = dflt.
Proof. intros Hi%get_None. unfold Dict.get_or. by rewrite Hi. Qed.

(** A sum over one duplicate-free index list equals the sum over another
    when the summand vanishes outside each of them. *)
Lemma Rsum_outside_zero (f : K → R) (l : list K) (P : K → Prop)
    `{∀ i, Decision (P i)} :
  (∀ i, i ∈ l → ¬ P i → f i = 0) →
  Rsum (f <$> l) = Rsum (f <$> filter P l).
Proof.
  induction l as [|a l IH]; intros Hz; [done|].
  rewrite filter_cons. csimpl.
  rewrite IH by (intros i Hi; apply Hz; by right).
  destruct (decide (P a)) as [Ha|Ha]; csimpl; [done|].
  rewrite (Hz a) by (done || by left). lra.
Qed.

Lemma Rsum_support (f : K → R) (l1 l2 : list K) :
  NoDup l1 → NoDup l2 →
  (∀ i, i ∉ l1 → f i = 0) → (∀ i, i ∉ l2 → f i = 0) →
  Rsum (f <$> l1) = Rsum (f <$> l2).
Proof.
  intros H1 H2 Hz1 Hz2.
  rewrite (Rsum_outside_zero f l1 (λ i, i ∈ l2)) by auto.
  rewrite (Rsum_outside_zero f l2 (λ i, i ∈ l1)) by auto.
  apply Rsum_perm, fmap_Permutation, NoDup_Permutation.
  - by apply NoDup_filter.
  - by apply NoDup_filter.
  - intros i. rewrite !list_elem_of_filter. tauto.
Qed.

(** Both branches of [dot] compute the sum, over the keys of the vector
    they iterate, of the products of the two entries. *)
Lemma dot_iter_left x y :
  Dict.wf x →
  (λ '(i, xi), xi * Dict.get_or y i 0) <$> x =
    (λ i, Dict.get_or x i 0 * Dict.get_or y i 0) <$> Dict.keys x.
Proof.
  intros Hx. unfold Dict.keys. rewrite <- list_fmap_compose.
  apply Forall_fmap_ext, Forall_forall. intros [i xi] Hin. simpl.
  assert (Dict.get_or x i 0 = xi) as ->; [|done].
  unfold Dict.get_or. by rewrite (get_elem_of_wf x i xi).
Qed.

Lemma dot_iter_right x y :
  Dict.wf y →
  (λ '(i, yi), Dict.get_or x i 0 * yi) <$> y =
    (λ i, Dict.get_or x i 0 * Dict.get_or y i 0) <$> Dict.keys y.
Proof.
  intros Hy. unfold Dict.keys. rewrite <- list_fmap_compose.
  apply Forall_fmap_ext, Forall_forall. intros [i yi] Hin. simpl.
  assert (Dict.get_or y i 0 = yi) as ->; [|done].
  unfold Dict.get_or. by rewrite (get_elem_of_wf y i yi).
Qed.

Lemma dot_sum x y :
  Dict.wf x → Dict.wf y →
  dot x y = Rsum ((λ i, Dict.get_or x i 0 * Dict.get_or y i 0) <$> Dict.keys x).
Proof.
  intros Hx Hy. unfold dot. rewrite !py_sum_Rsum.
  destruct (length x <? length y)%nat.
  - by rewrite dot_iter_left.
  - rewrite dot_iter_right by done. apply Rsum_support; [done..| |].
    + intros i Hi. rewrite (get_or_absent y) by done. lra.
    + intros i Hi. rewrite (get_or_absent x) by done. lra.
Qed.





End dot_facts.




(** C3, as the code has it.  [chain_dot] raises exactly when it is called
    with no vector at all: [min] of an empty sequence has no value. *)
Theorem chain_dot_raises_iff_empty {K : Type} `{EqDecision K}
    (xs : list (list (K * R))) :
  chain_dot xs = None ↔ xs = [].
Proof.
  unfold chain_dot. destruct xs as [|x xs]; [done|]. csimpl. split; done.
Qed.

(** C3, refuted as stated: [chain_dot()] yields no result. *)
Lemma chain_dot_empty_raises : chain_dot (K:=Z) [] = None.
Proof. reflexivity. Qed.

(** ** [sigmoid] and [clamp] *)

Lemma logistic_bounds e : 0 < e → 0 < 1 / (1 + e) < 1.
Proof.
  intros He. assert (0 < / (1 + e)) as Hinv by (apply Rinv_0_lt_compat; lra).
  assert (/ (1 + e) * (1 + e) = 1) as Hmul by (apply Rinv_l; lra).
  unfold Rdiv. rewrite Rmult_1_l. split; [done | nra].
Qed.

Lemma exp_opp_antitone x y : x <= y → exp (- y) <= exp (- x).
Proof.
  intros [Hlt| ->]; [|lra]. left. apply exp_increasing. lra.
Qed.

Lemma sigmoid_low x : x < -30 → sigmoid x = Some 0.
Proof. intros Hx. unfold sigmoid. by destruct (Rlt_dec x (-30)). Qed.

Lemma sigmoid_high x : x > 30 → sigmoid x = Some 1.
Proof.
  intros Hx. unfold sigmoid.
  destruct (Rlt_dec x (-30)); [lra|]. by destruct (Rgt_dec x 30).
Qed.

Lemma sigmoid_mid x : -30 <= x <= 30 → sigmoid x = Some (1 / (1 + exp (- x))).
Proof.
  intros Hx. unfold sigmoid.
  destruct (Rlt_dec x (-30)); [lra|]. destruct (Rgt_dec x 30); [lra|].
  unfold truediv. destruct (Req_dec_T (1 + exp (- x)) 0) as [Hz|]; [|done].
  pose proof (exp_pos (- x)). lra.
Qed.

Lemma sigmoid_range x : ∃ r, sigmoid x = Some r ∧ 0 <= r <= 1.
Proof.
  destruct (Rlt_dec x (-30)) as [Hlo|Hlo].
  { exists 0. split; [by apply sigmoid_low | lra]. }
  destruct (Rgt_dec x 30) as [Hhi|Hhi].
  { exists 1. split; [by apply sigmoid_high | lra]. }
  exists (1 / (1 + exp (- x))). split; [apply sigmoid_mid; lra|].
  pose proof (logistic_bounds (exp (- x)) (exp_pos _)). lra.
Qed.

(** C7.  [sigmoid] returns 0 below -30, 1 above 30 and the logistic value
    [1 / (1 + e^{-x})] in between; it always returns, with a value in
    [[0, 1]], and [sigmoid 0] is one half. *)
Theorem sigmoid_cases :
  sigmoid 0 = Some (1 / 2) ∧
  ∀ x : R,
    (x < -30 → sigmoid x = Some 0) ∧
    (x > 30 → sigmoid x = Some 1) ∧
    (-30 <= x <= 30 → sigmoid x = Some (1 / (1 + exp (- x)))) ∧
    (∃ r, sigmoid x = Some r ∧ 0 <= r <= 1).
Proof.
  split.
  - rewrite sigmoid_mid by lra. rewrite Ropp_0, exp_0. f_equal; lra.
  - intros x. split_and!;
      [apply sigmoid_low | apply sigmoid_high | apply sigmoid_mid | apply sigmoid_range].
Qed.

(** C9.  [sigmoid] is monotone: for [x <= y] both calls return and the value
    at [x] does not exceed the value at [y], also across -30 and 30. *)
Theorem sigmoid_monotone (x y : R) :
  x <= y → ∃ a b, sigmoid x = Some a ∧ sigmoid y = Some b ∧ a <= b.
Proof.
  intros Hxy.
  destruct (sigmoid_range x) as (a & Ha & Ha01).
  destruct (sigmoid_range y) as (b & Hb & Hb01).
  exists a, b. split_and!; [done..|].
  destruct (Rlt_dec x (-30)) as [Hx|Hx].
  { rewrite sigmoid_low in Ha by done. injection Ha as <-. lra. }
  destruct (Rgt_dec y 30) as [Hy|Hy].
  { rewrite sigmoid_high in Hb by done. injection Hb as <-. lra. }
  rewrite sigmoid_mid in Ha, Hb by lra. injection Ha as <-. injection Hb as <-.
  pose proof (exp_pos (- x)). pose proof (exp_pos (- y)).
  pose proof (exp_opp_antitone x y Hxy).
  unfold Rdiv. rewrite !Rmult_1_l. apply Rinv_le_contravar; lra.
Qed.

(** C9 at [x = -31], [y = 0], across the lower threshold. *)
Lemma sigmoid_monotone_witness :
  ∃ a b, sigmoid (-31) = Some a ∧ sigmoid 0 = Some b ∧ a <= b.
Proof. apply (sigmoid_monotone (-31) 0). lra. Defined.

(** C8.  With [minimum > maximum], [clamp] returns [minimum]; with
    [minimum <= maximum] its value lies between the two bounds. *)
Theorem clamp_bounds (x minimum maximum : R) :
  (minimum > maximum → clamp x minimum maximum = minimum) ∧
  (minimum <= maximum → minimum <= clamp x minimum maximum <= maximum).
Proof.
  unfold clamp, max2, min2.
  destruct (Rlt_dec maximum x); destruct (Rgt_dec minimum _);
    split; intros; (done || lra).
Qed.

(** C8 at the bounds [(2, 1)] and [(0, 1)], with [x = 5]. *)
Lemma clamp_bounds_witness :
  clamp 5 2 1 = 2 ∧ 0 <= clamp 5 0 1 <= 1.
Proof.
  split.
  - apply (clamp_bounds 5 2 1). lra.
  - apply (clamp_bounds 5 0 1). lra.
Defined.

(** ** [softmax] *)

Section softmax_facts.
Context {K : Type} `{EqDecision K}.
Implicit Types (y pre post : list (K * R)) (m total : R).

Lemma wf_app_fresh pre c (p : R) post :
  Dict.wf (pre ++ (c, p) :: post) → c ∉ Dict.keys pre.
Proof.
  unfold Dict.wf, Dict.keys. rewrite fmap_app. csimpl.
  intros (_ & Hdisj & _)%NoDup_app Hin. apply (Hdisj c Hin). by left.
Qed.

Lemma wf_app_assign pre c (p q : R) post :
  Dict.wf (pre ++ (c, p) :: post) → Dict.wf ((pre ++ [(c, q)]) ++ post).
Proof.
  unfold Dict.wf, Dict.keys. by rewrite <- app_assoc, !fmap_app.
Qed.

(** First loop, from entry [length pre] on: the entries still to visit are
    replaced, one by one and in place, by their exponentials. *)
Lemma softmax_exp_loop m post pre t :
  Dict.wf (pre ++ post) →
  foldM (softmax_exp_step m) (pre ++ post, t) (seq (length pre) (length post)) =
    Some (pre ++ ((λ '(c, p), (c, exp (p - m))) <$> post),
          t + Rsum ((λ '(c, p), exp (p - m)) <$> post)).
Proof.
  revert pre t. induction post as [|[c p] post IH]; intros pre t Hwf; csimpl.
  { do 2 f_equal. lra. }
  rewrite list_lookup_middle by done. csimpl.
  rewrite setitem_middle, get_middle by (by eapply wf_app_fresh). csimpl.
  pose proof (IH (pre ++ [(c, exp (p - m))]) (t + exp (p - m))
                (wf_app_assign _ _ _ _ _ Hwf)) as IH'.
  rewrite length_app, Nat.add_1_r, <- !app_assoc in IH'. simpl in IH'.
  rewrite IH'. do 2 f_equal. lra.
Qed.

Lemma softmax_div_step_middle total pre c (e : R) post :
  total ≠ 0 → c ∉ Dict.keys pre →
  softmax_div_step total (pre ++ (c, e) :: post) (length pre) =
    Some (pre ++ (c, e / total) :: post).
Proof.
  intros Ht Hc. unfold softmax_div_step.
  rewrite list_lookup_middle by done. csimpl.
  rewrite get_middle by done. csimpl.
  rewrite truediv_Some by done. csimpl.
  by rewrite setitem_middle.
Qed.

(** Second loop: every entry is divided, in place, by the non-zero total. *)
Lemma softmax_div_loop total post pre :
  total ≠ 0 → Dict.wf (pre ++ post) →
  foldM (softmax_div_step total) (pre ++ post) (seq (length pre) (length post)) =
    Some (pre ++ ((λ '(c, e), (c, e / total)) <$> post)).
Proof.
  intros Ht. revert pre. induction post as [|[c e] post IH]; intros pre Hwf; csimpl.
  { done. }
  rewrite softmax_div_step_middle by (done || by eapply wf_app_fresh). csimpl.
  pose proof (IH (pre ++ [(c, e / total)]) (wf_app_assign _ _ _ _ _ Hwf)) as IH'.
  rewrite length_app, Nat.add_1_r, <- !app_assoc in IH'. simpl in IH'.
  by rewrite IH'.
Qed.

Lemma Rsum_pos (l : list R) : l ≠ [] → Forall (λ v, 0 < v) l → 0 < Rsum l.
Proof.
  intros Hne Hpos. destruct Hpos as [|v l Hv Hl]; [done|]. simpl.
  assert (0 <= Rsum l); [|lra]. clear -Hl. induction Hl; simpl; lra.
Qed.

Lemma Rsum_div {X : Type} (f : X → R) (l : list X) t :
  Rsum ((λ a, f a / t) <$> l) = Rsum (f <$> l) / t.
Proof. induction l as [|a l IH]; csimpl; [lra|]. rewrite IH. lra. Qed.

(** What [softmax] leaves in a non-empty dict: every score [p] has become
    [exp (p - maximum) / total], [total] being the sum of the exponentials. *)
Lemma softmax_value y :
  Dict.wf y → y ≠ [] →
  ∃ m total,
    0 < total ∧ total = Rsum ((λ '(c, p), exp (p - m)) <$> y) ∧
    softmax y = Some ((λ '(c, p), (c, exp (p - m) / total)) <$> y).
Proof.
  intros Hwf Hne. unfold softmax.
  destruct y as [|cp y'] eqn:Hy; [done|]. rewrite <- Hy in *. clear Hne.
  assert (y ≠ []) as Hne by (by rewrite Hy).
  destruct (max_of (Dict.values y)) as [m|] eqn:Hm; [|by rewrite Hy in Hm].
  csimpl. pose proof (softmax_exp_loop m y [] 0 Hwf) as Hloop1.
  simpl in Hloop1. rewrite Hloop1. csimpl. clear Hloop1.
  set (total := 0 + Rsum ((λ '(c, p), exp (p - m)) <$> y)).
  assert (0 < total) as Hpos.
  { unfold total. rewrite Rplus_0_l. apply Rsum_pos.
    - by rewrite Hy.
    - apply Forall_fmap, Forall_forall. intros [c p] _. apply exp_pos. }
  exists m, total. split_and!; [done | unfold total; lra |].
  rewrite length_fmap.
  pose proof (softmax_div_loop total ((λ '(c, p), (c, exp (p - m))) <$> y) []) as Hloop2.
  simpl in Hloop2. rewrite length_fmap in Hloop2. rewrite Hloop2.
  - f_equal. rewrite <- list_fmap_compose. apply list_fmap_ext. by intros _ [c p] _.
  - lra.
  - unfold Dict.wf, Dict.keys. rewrite <- list_fmap_compose.
    erewrite list_fmap_ext; [apply Hwf|]. by intros _ [c p] _.
Qed.
End softmax_facts.

(** C6.  On a well-formed dict [softmax] returns; the values it leaves in a
    non-empty dict add up to exactly 1, and an empty dict comes back empty. *)
Theorem softmax_sums_to_one {K : Type} `{EqDecision K} (y : list (K * R)) :
  Dict.wf y →
  ∃ r, softmax y = Some r ∧
    (y = [] → r = []) ∧
    (y ≠ [] → py_sum (Dict.values r) = 1).
Proof.
  intros Hwf. destruct (decide (y = [])) as [->|Hne].
  { exists []. by split_and!. }
  destruct (softmax_value y Hwf Hne) as (m & total & Hpos & Htot & ->).
  eexists. split_and!; [done..|]. intros _.
  rewrite py_sum_Rsum. unfold Dict.values. rewrite <- list_fmap_compose.
  erewrite (list_fmap_ext _ (λ cp, (let '(c, p) := cp in exp (p - m)) / total));
    [|by intros _ [c p] _].
  rewrite Rsum_div, <- Htot. apply Rdiv_diag. lra.
Qed.

(** C10, in exact arithmetic.  [softmax] keeps the keys of its argument, in
    their order, and over the reals every value it leaves is strictly
    positive. *)
Theorem softmax_keys_positive {K : Type} `{EqDecision K} (y : list (K * R)) :
  Dict.wf y →
  ∃ r, softmax y = Some r ∧
    Dict.keys r = Dict.keys y ∧
    Forall (λ v, 0 < v) (Dict.values r).
Proof.
  intros Hwf. destruct (decide (y = [])) as [->|Hne].
  { exists []. split_and!; [done..|]. apply Forall_nil_2. }
  destruct (softmax_value y Hwf Hne) as (m & total & Hpos & Htot & ->).
  eexists. split_and!; [done| |].
  - unfold Dict.keys. rewrite <- list_fmap_compose.
    apply list_fmap_ext. by intros _ [c p] _.
  - unfold Dict.values. rewrite <- list_fmap_compose.
    apply Forall_fmap, Forall_forall. intros [c p] _. simpl.
    apply Rdiv_lt_0_compat; [apply exp_pos | done].
Qed.

(** ** [dotvecmat] *)

(** C1, at [x = {0: 1, 1: 1}], [A = {(0, 5): 2, (1, 5): 3}].  The two entries
    of column 5 should add up to 5; the second assignment reads [C.get(j)]
    with the row index [j = 1], finds nothing, and overwrites the first. *)
Theorem dotvecmat_overwrites :
  let x := [(0%Z, 1); (1%Z, 1)] in
  let A := [((0%Z, 5%Z), 2); ((1%Z, 5%Z), 3)] in
  Dict.get (dotvecmat x A) 5%Z = Some 3 ∧ dotvecmat_entry x A 5%Z = 5.
Proof.
  split.
  - py_eval. f_equal. lra.
  - py_eval. simpl. lra.
Qed.

(** The same slip with a single row: the running value of column 0 leaks
    into column 1, since [C.get(j)] looks the row index up among the columns. *)
Example dotvecmat_leaks :
  let x := [(0%Z, 1)] in
  let A := [((0%Z, 0%Z), 2); ((0%Z, 1%Z), 3)] in
  Dict.get (dotvecmat x A) 1%Z = Some 5 ∧ dotvecmat_entry x A 1%Z = 3.
Proof.
  split.
  - py_eval. f_equal. lra.
  - py_eval. simpl. lra.
Qed.

(** ** The examples of the docstrings, and instances of the theorems *)

Example dot_doc : dot [("x0", 1); ("x1", 2)] [("x1", 21); ("x2", 3)] = 42.
Proof. py_eval. lra. Qed.

Example chain_dot_doc :
  chain_dot [ [("x0", 1); ("x1", 2); ("x2", 1)];
              [("x1", 21); ("x2", 3)];
              [("x1", 2); ("x2", 1 / 3)] ] = Some 85.
Proof. py_eval. f_equal. lra. Qed.

Example outer_doc :
  Dict.keys (outer [(0%Z, 1); (1%Z, 2); (2%Z, 3)] [(0%Z, 2); (1%Z, 4); (2%Z, 8)])
    = [(0, 0); (0, 1); (0, 2); (1, 0); (1, 1); (1, 2); (2, 0); (2, 1); (2, 2)]%Z.
Proof. reflexivity. Qed.

Example matmul2d_doc :
  Dict.keys (matmul2d A_doc B_doc)
    = [(0, 0); (0, 1); (0, 2); (0, 3); (1, 0); (1, 1); (1, 2); (1, 3)]%Z ∧
  Dict.get (matmul2d A_doc B_doc) (0, 0)%Z = Some 18 ∧
  Dict.get (matmul2d A_doc B_doc) (0, 2)%Z = Some 0 ∧
  Dict.get (matmul2d A_doc B_doc) (1, 3)%Z = Some 18.
Proof. split_and!; [reflexivity | py_eval; f_equal; lra ..]. Qed.

Example sherman_morrison_doc :
  ∃ A', sherman_morrison A_inv_doc [(0%Z, 1); (1%Z, 2); (2%Z, 3)] [(0%Z, 4)] = Some A' ∧
    Dict.keys A' = [(0, 0); (1, 1); (2, 2); (1, 0); (2, 0)]%Z ∧
    Dict.get A' (0, 0)%Z = Some (1 / 9) ∧
    Dict.get A' (1, 0)%Z = Some (- 8 / 9) ∧
    Dict.get A' (2, 0)%Z = Some (- 4 / 3).
Proof.
  py_eval.
  repeat (destruct (Req_dec_T _ 0) as [Hz|_]; [exfalso; lra|]).
  eexists. split; [reflexivity|]. py_eval.
  split_and!; [reflexivity | f_equal; lra ..].
Qed.

Lemma A_doc_wf : Dict.wf A_doc.
Proof. unfold Dict.wf. apply (bool_decide_unpack _). by vm_compute. Qed.

Lemma B_doc_wf : Dict.wf B_doc.
Proof. unfold Dict.wf. apply (bool_decide_unpack _). by vm_compute. Qed.

(** C5 at entry [(0, 0)] of the docstring example: inner indices 0, 1, 2. *)
Lemma matmul2d_entry_witness :
  Dict.get (matmul2d A_doc B_doc) (0, 0)%Z =
    Some (Rsum ((λ k, Dict.get_or A_doc (0%Z, k) 0 * Dict.get_or B_doc (k, 0%Z) 0)
                  <$> [0; 1; 2]%Z)).
Proof.
  apply (matmul2d_entry A_doc B_doc 0%Z 0%Z [0; 1; 2]%Z A_doc_wf B_doc_wf).
  - apply (bool_decide_unpack _). by vm_compute.
  - intros k. by rewrite <- elem_of_inner_keys.
Defined.

Lemma scores_doc_wf : Dict.wf scores_doc.
Proof. unfold Dict.wf. apply (bool_decide_unpack _). by vm_compute. Qed.

(** C6 at the scores [{a: 1, b: 2, c: 3}]. *)
Lemma softmax_sums_to_one_witness :
  ∃ r, softmax scores_doc = Some r ∧
    (scores_doc = [] → r = []) ∧
    (scores_doc ≠ [] → py_sum (Dict.values r) = 1).
Proof. apply (softmax_sums_to_one scores_doc scores_doc_wf). Defined.

(** C10 at the same scores. *)
Lemma softmax_keys_positive_witness :
  ∃ r, softmax scores_doc = Some r ∧
    Dict.keys r = ["a"; "b"; "c"] ∧
    Forall (λ v, 0 < v) (Dict.values r).
Proof. apply (softmax_keys_positive scores_doc scores_doc_wf). Defined.


(** * Further properties of the module *)

(** ** [clamp], [sigmoid] and [prod] *)

(** X1.  [clamp] leaves a value inside the bounds as it is, and clamping
    twice is clamping once, for any bounds (also with [minimum > maximum]). *)
Theorem clamp_idempotent (x minimum maximum : R) :
  (minimum <= x <= maximum → clamp x minimum maximum = x) ∧
  clamp (clamp x minimum maximum) minimum maximum = clamp x minimum maximum.
Proof.
  unfold clamp, max2, min2. split; [intros Hx|];
    repeat (match goal with |- context [Rlt_dec ?a ?b] => destruct (Rlt_dec a b)
                          | |- context [Rgt_dec ?a ?b] => destruct (Rgt_dec a b) end);
    lra.
Qed.

(** X2.  [clamp] is monotone in its first argument, for any bounds. *)
Theorem clamp_monotone (x y minimum maximum : R) :
  x <= y → clamp x minimum maximum <= clamp y minimum maximum.
Proof.
  intros Hxy. unfold clamp, max2, min2.
  repeat (match goal with |- context [Rlt_dec ?a ?b] => destruct (Rlt_dec a b)
                        | |- context [Rgt_dec ?a ?b] => destruct (Rgt_dec a b) end);
    lra.
Qed.

Lemma clamp_monotone_witness : clamp (-1) 0 1 <= clamp (1 / 2) 0 1.
Proof. apply (clamp_monotone (-1) (1 / 2) 0 1). lra. Defined.

Lemma exp_opp_inv x : exp (- x) * exp x = 1.
Proof. rewrite <- exp_plus, Rplus_opp_l. apply exp_0. Qed.

(** X3.  In exact arithmetic [sigmoid] is symmetric about 0:
    [sigmoid(-x) = 1 - sigmoid(x)], the two guards at -30 and 30 mirroring
    each other. *)
Theorem sigmoid_symmetric (x : R) :
  ∃ a b, sigmoid x = Some a ∧ sigmoid (- x) = Some b ∧ b = 1 - a.
Proof.
  destruct (Rlt_dec x (-30)) as [Hlo|Hlo].
  { exists 0, 1. rewrite sigmoid_low, sigmoid_high by lra. split_and!; [done..|lra]. }
  destruct (Rgt_dec x 30) as [Hhi|Hhi].
  { exists 1, 0. rewrite sigmoid_high, sigmoid_low by lra. split_and!; [done..|lra]. }
  rewrite !sigmoid_mid by lra. eexists _, _. split_and!; [done..|].
  rewrite Ropp_involutive.
  pose proof (exp_pos x). pose proof (exp_pos (- x)). pose proof (exp_opp_inv x).
  field_simplify_eq; [nra | split; lra].
Qed.

(** X4.  [sigmoid] returns exactly 0 only below -30 and exactly 1 only above
    30: between the guards it returns a value strictly inside (0, 1). *)
Theorem sigmoid_saturates (x : R) :
  (sigmoid x = Some 0 ↔ x < -30) ∧
  (sigmoid x = Some 1 ↔ x > 30) ∧
  (-30 <= x <= 30 → ∃ r, sigmoid x = Some r ∧ 0 < r < 1).
Proof.
  destruct (Rlt_dec x (-30)) as [Hlo|Hlo].
  { rewrite sigmoid_low by done.
    split_and!; [split | split | ]; (done || intros; simplify_eq; lra). }
  destruct (Rgt_dec x 30) as [Hhi|Hhi].
  { rewrite sigmoid_high by done.
    split_and!; [split | split | ]; (done || intros; simplify_eq; lra). }
  rewrite sigmoid_mid by lra.
  pose proof (logistic_bounds (exp (- x)) (exp_pos _)).
  split_and!; [split | split | ]; intros; simplify_eq; try lra.
  by eexists.
Qed.

(** X5.  In exact arithmetic: [prod] of nothing is 1 and of a single number
    is that number, [prod] of a concatenation is the product of the two
    [prod]s, it does not depend on the order of the factors, and one zero
    factor makes it zero. *)
Theorem prod_app (l1 l2 : list R) (a : R) :
  prod [] = 1 ∧
  prod [a] = a ∧
  prod (l1 ++ l2) = prod l1 * prod l2 ∧
  (l1 ≡ₚ l2 → prod l1 = prod l2) ∧
  (0 ∈ l1 → prod l1 = 0).
Proof.
  rewrite !prod_Rprod. split_and!.
  - done.
  - simpl. lra.
  - induction l1 as [|x l1 IH]; simpl; [lra|]. rewrite IH. lra.
  - apply Rprod_perm.
  - apply Rprod_zero.
Qed.

(** ** [outer] *)

Section outer_facts.
Context {K : Type} `{EqDecision K}.
Implicit Types (u v : list (K * R)).

Lemma setitem_fresh {K' V : Type} `{EqDecision K'} (d : list (K' * V)) k w :
  k ∉ Dict.keys d → Dict.setitem d k w = d ++ [(k, w)].
Proof.
  intros Hk. rewrite <- (app_nil_r d) at 1.
  unfold Dict.keys in Hk. induction d as [|[k0 v0] d IH]; csimpl in *; [done|].
  apply not_elem_of_cons in Hk as [Hne Hk].
  rewrite decide_False by done. by rewrite IH.
Qed.

(** Assigning, one after the other, fresh and distinct keys appends them. *)
Lemma fold_setitem_fresh {K' V : Type} `{EqDecision K'} (l C : list (K' * V)) :
  Dict.wf (C ++ l) →
  fold_left (λ C '(k, w), Dict.setitem C k w) l C = C ++ l.
Proof.
  revert C. induction l as [|[k w] l IH]; intros C Hwf; simpl.
  { by rewrite app_nil_r. }
  rewrite setitem_fresh.
  - rewrite IH; rewrite <- app_assoc; done.
  - unfold Dict.wf, Dict.keys in *. rewrite fmap_app in Hwf.
    apply NoDup_app in Hwf as (_ & Hdisj & _).
    intros Hin. apply (Hdisj k Hin). csimpl. by left.
Qed.

Lemma get_app {K' V : Type} `{EqDecision K'} (d1 d2 : list (K' * V)) k :
  Dict.get (d1 ++ d2) k =
    match Dict.get d1 k with Some w => Some w | None => Dict.get d2 k end.
Proof.
  induction d1 as [|[k0 v0] d1 IH]; simpl; [done|]. by case_decide.
Qed.

(** The items [outer] builds, one for each pair of entries. *)
Lemma outer_fold u v :
  outer u v =
    fold_left (λ C '(k, w), Dict.setitem C k w)
      ((λ '((ki, vi), (kj, vj)), ((ki, kj), vi * vj)) <$> product u v) [].
Proof.
  unfold outer. generalize (@nil ((K * K) * R)).
  induction (product u v) as [|[[ki vi] [kj vj]] l IH]; intros C; [done|].
  csimpl. apply IH.
Qed.

Lemma outer_row_get v (ki0 : K) (vi0 : R) (ki kj : K) :
  Dict.get ((λ '(kj, vj), ((ki0, kj), vi0 * vj)) <$> v) (ki, kj) =
    if decide (ki0 = ki) then b ← Dict.get v kj; Some (vi0 * b) else None.
Proof.
  induction v as [|[kj0 vj0] v IH]; csimpl; [by case_decide|].
  rewrite IH. clear IH.
  destruct (decide (ki0 = ki)) as [->|Hne].
  - destruct (decide (kj0 = kj)) as [->|Hne'].
    + by rewrite decide_True.
    + rewrite decide_False; [done|]. by intros [= ?].
  - rewrite decide_False; [done|]. by intros [= ?].
Qed.

Lemma product_keys_NoDup u v :
  Dict.wf u → Dict.wf v →
  Dict.wf ((λ '((ki, vi), (kj, vj)), ((ki, kj), vi * vj)) <$> product u v).
Proof.
  intros Hu Hv. unfold Dict.wf, Dict.keys in *.
  induction u as [|[ki vi] u IH]; [apply NoDup_nil_2|]. csimpl in Hu.
  apply NoDup_cons in Hu as [Hfresh Hu]. specialize (IH Hu).
  rewrite product_cons, !fmap_app.
  apply NoDup_app. split_and!; [| |done].
  - rewrite <- !list_fmap_compose.
    rewrite (list_fmap_ext _ ((λ kj, (ki, kj)) ∘ fst) v) by (by intros _ [??] _).
    rewrite list_fmap_compose. apply NoDup_fmap; [|done]. by intros ?? [= ?].
  - intros [ki' kj'] Hrow Hrest.
    apply list_elem_of_fmap in Hrow as ([[ki1 kj1] w1] & [= -> ->] & Hrow).
    apply list_elem_of_fmap in Hrow as ([[ki2 vi2] [kj2 vj2]] & [= -> -> ->] & Hrow).
    apply list_elem_of_fmap in Hrow as ([kj3 vj3] & [= -> -> -> ->] & _).
    apply list_elem_of_fmap in Hrest as ([[ki4 kj4] w4] & [= -> ->] & Hrest).
    apply list_elem_of_fmap in Hrest as ([[ki5 vi5] [kj5 vj5]] & [= -> -> ->] & Hrest).
    unfold product in Hrest.
    apply list_elem_of_bind in Hrest as ([ki6 vi6] & Hin2 & Hin1).
    apply list_elem_of_fmap in Hin2 as (? & [= -> -> <-] & _).
    apply Hfresh, list_elem_of_fmap. by exists (ki6, vi6).
Qed.

Lemma outer_items u v :
  Dict.wf u → Dict.wf v →
  outer u v = (λ '((ki, vi), (kj, vj)), ((ki, kj), vi * vj)) <$> product u v.
Proof.
  intros Hu Hv. rewrite outer_fold, fold_setitem_fresh; [done|].
  by apply product_keys_NoDup.
Qed.

Lemma length_product {X Y : Type} (l : list X) (l' : list Y) :
  length (product l l') = (length l * length l')%nat.
Proof.
  induction l as [|a l IH]; [done|].
  rewrite product_cons, length_app, length_fmap, IH. done.
Qed.

Lemma outer_get u v (ki kj : K) :
  Dict.wf u → Dict.wf v →
  Dict.get (outer u v) (ki, kj) =
    a ← Dict.get u ki; b ← Dict.get v kj; Some (a * b).
Proof.
  intros Hu Hv. rewrite outer_items by done. clear Hv.
  unfold Dict.wf, Dict.keys in Hu.
  induction u as [|[ki0 vi0] u IH]; [done|]. csimpl in Hu.
  apply NoDup_cons in Hu as [Hfresh Hu]. specialize (IH Hu).
  rewrite product_cons, fmap_app, <- list_fmap_compose, get_app.
  rewrite (list_fmap_ext _ (λ '(kj, vj), ((ki0, kj), vi0 * vj)) v)
    by (by intros _ [??] _).
  rewrite outer_row_get, IH. cbn [Dict.get].
  destruct (decide (ki0 = ki)) as [->|Hne]; [|done]. csimpl.
  destruct (Dict.get v kj) as [b|]; csimpl; [done|].
  apply (get_None (V:=R)) in Hfresh. by rewrite Hfresh.
Qed.
End outer_facts.

(** X6.  For dicts [u] and [v], [outer u v] has one entry for every pair of
    an entry of [u] and an entry of [v]: [|u| * |v|] entries, the one at
    [(ki, kj)] holding [u[ki] * v[kj]] (a zero product is stored too), and no
    entry at a pair with [ki] missing from [u] or [kj] missing from [v]. *)
Theorem outer_entries {K : Type} `{EqDecision K} (u v : list (K * R)) :
  Dict.wf u → Dict.wf v →
  length (outer u v) = (length u * length v)%nat ∧
  ∀ ki kj,
    Dict.get (outer u v) (ki, kj) =
      a ← Dict.get u ki; b ← Dict.get v kj; Some (a * b).
Proof.
  intros Hu Hv. split.
  - by rewrite outer_items, length_fmap, length_product.
  - intros ki kj. by apply outer_get.
Qed.

Lemma outer_entries_witness :
  let u := [(0%Z, 1); (1%Z, 2)] in
  let v := [(0%Z, 0); (5%Z, 4)] in
  length (outer u v) = 4%nat ∧
  ∀ ki kj,
    Dict.get (outer u v) (ki, kj) =
      a ← Dict.get u ki; b ← Dict.get v kj; Some (a * b).
Proof.
  intros u v. apply (outer_entries u v);
    unfold Dict.wf; apply (bool_decide_unpack _); by vm_compute.
Defined.

(** ** More on [dot] and [chain_dot] *)

Section dot_more.
Context {K : Type} `{EqDecision K}.
Implicit Types (x y m : list (K * R)) (xs : list (list (K * R))).

Lemma dot_self_squares x :
  Dict.wf x → dot x x = Rsum ((λ v, v * v) <$> Dict.values x).
Proof.
  intros Hx. rewrite dot_sum by done. f_equal.
  rewrite <- (dot_iter_left x x Hx). unfold Dict.values.
  rewrite <- list_fmap_compose. apply Forall_fmap_ext, Forall_forall.
  intros [i xi] Hin. simpl. f_equal.
  unfold Dict.get_or. by rewrite (get_elem_of_wf x i xi).
Qed.

Lemma Rsum_squares_nonneg (l : list R) : 0 <= Rsum ((λ v, v * v) <$> l).
Proof. induction l as [|v l IH]; csimpl; [lra | nra]. Qed.

End dot_more.

(** X7.  [dot x y] is the sum of [x[i] * y[i]] over the keys [i] present in
    both dicts, whichever of the two the code iterates; with no common key
    (in particular with an empty argument) it is 0. *)
Theorem dot_common_keys {K : Type} `{EqDecision K} (x y : list (K * R)) :
  Dict.wf x → Dict.wf y →
  dot x y =
    Rsum ((λ i, Dict.get_or x i 0 * Dict.get_or y i 0)
            <$> filter (λ i, i ∈ Dict.keys y) (Dict.keys x)).
Proof.
  intros Hx Hy. rewrite dot_sum by done.
  apply Rsum_outside_zero. intros i _ Hi.
  rewrite (get_or_absent y) by done. lra.
Qed.

Lemma dot_common_keys_witness :
  let x := [("x0", 1); ("x1", 2)] in
  let y := [("x1", 21); ("x2", 3)] in
  dot x y =
    Rsum ((λ i, Dict.get_or x i 0 * Dict.get_or y i 0)
            <$> filter (λ i, i ∈ Dict.keys y) (Dict.keys x)).
Proof.
  intros x y. apply (dot_common_keys x y);
    unfold Dict.wf; apply (bool_decide_unpack _); by vm_compute.
Defined.

(** X8.  [dot x x] is the sum of the squares of the values of [x], and so
    it is never negative. *)
Theorem dot_self_nonneg {K : Type} `{EqDecision K} (x : list (K * R)) :
  Dict.wf x →
  dot x x = Rsum ((λ v, v * v) <$> Dict.values x) ∧ 0 <= dot x x.
Proof.
  intros Hx. rewrite dot_self_squares by done. split; [done|].
  apply Rsum_squares_nonneg.
Qed.

Lemma dot_self_nonneg_witness :
  let x := [("x0", 1); ("x1", -2)] in
  dot x x = Rsum ((λ v, v * v) <$> Dict.values x) ∧ 0 <= dot x x.
Proof.
  intros x. apply (dot_self_nonneg x).
  unfold Dict.wf. apply (bool_decide_unpack _). by vm_compute.
Defined.





(** ** More on [dotvecmat] *)

Section dotvecmat_facts.
Context {K : Type} `{EqDecision K}.
Implicit Types (x C : list (K * R)) (A : list ((K * K) * R)) (i j k : K).

Lemma elem_of_product {X Y : Type} (l : list X) (l' : list Y) a b :
  (a, b) ∈ product l l' ↔ a ∈ l ∧ b ∈ l'.
Proof.
  unfold product. rewrite list_elem_of_bind. split.
  - intros (a' & Hin & Ha). apply list_elem_of_fmap in Hin as (b' & [= -> ->] & Hb).
    done.
  - intros [Ha Hb]. exists a. split; [|done]. apply list_elem_of_fmap. by exists b.
Qed.

Lemma elem_of_keys {V : Type} (d : list (K * V)) i :
  i ∈ Dict.keys d ↔ ∃ w, (i, w) ∈ d.
Proof.
  unfold Dict.keys. rewrite list_elem_of_fmap. split.
  - intros ([i' w] & -> & Hin). by exists w.
  - intros [w Hin]. by exists (i, w).
Qed.

Lemma is_Some_get_setitem C k k' (w : R) :
  is_Some (Dict.get (Dict.setitem C k' w) k) ↔ k' = k ∨ is_Some (Dict.get C k).
Proof.
  rewrite get_setitem. destruct (decide (k' = k)) as [->|Hne].
  - split; [by left | by eexists].
  - split; [by right | by intros [?|?]].
Qed.

(** Which keys the loop of [dotvecmat] leaves in [C]. *)
Lemma dotvecmat_fold_keys (l : list ((K * R) * ((K * K) * R))) C k :
  is_Some (Dict.get (fold_left dotvecmat_step l C) k) ↔
    is_Some (Dict.get C k) ∨ ∃ i xi a, ((i, xi), ((i, k), a)) ∈ l.
Proof.
  revert C. induction l as [|[[i xi] [[j k'] a]] l IH]; intros C.
  { simpl. split; [by left|]. intros [?|(?&?&?&[]%elem_of_nil)]. done. }
  cbn [fold_left dotvecmat_step]. rewrite IH. clear IH.
  destruct (decide (i ≠ j)) as [Hne|Heq%dec_stable].
  - split; (intros [?|(i0 & x0 & a0 & Hin)]; [by left|right]).
    + exists i0, x0, a0. by right.
    + apply elem_of_cons in Hin as [Heq|Hin]; [by simplify_eq|].
      by exists i0, x0, a0.
  - subst j. rewrite is_Some_get_setitem. split.
    + intros [[->|?]|(i0 & x0 & a0 & Hin)].
      * right. exists i, xi, a. by left.
      * by left.
      * right. exists i0, x0, a0. by right.
    + intros [?|(i0 & x0 & a0 & Hin)]; [by left; right|].
      apply elem_of_cons in Hin as [Heq|Hin]; [simplify_eq; by left; left|].
      right. by exists i0, x0, a0.
Qed.

(** On a diagonal matrix every pair that matches reads and writes the same
    key, and the loop adds up as it should. *)
Lemma dotvecmat_fold_diag (l : list ((K * R) * ((K * K) * R))) C k :
  Forall (λ p, p.2.1.1 = p.2.1.2) l →
  Dict.get (fold_left dotvecmat_step l C) k =
    match omap (dotvecmat_hit k) l with
    | [] => Dict.get C k
    | hs => Some (Dict.get_or C k 0 + Rsum hs)
    end.
Proof.
  intros Hdiag. revert C.
  induction Hdiag as [|[[i xi] [[j k'] a]] l Hjk _ IH]; intros C; [done|].
  simpl in Hjk. subst k'. csimpl. rewrite IH. clear IH.
  destruct (decide (i ≠ j)) as [Hne|Heq%dec_stable].
  { rewrite decide_False by tauto. done. }
  subst j. destruct (decide (i = k)) as [->|Hk].
  - rewrite decide_True by done. unfold Dict.get_or.
    rewrite get_setitem_eq. csimpl.
    destruct (omap _ l) as [|h hs]; simpl; f_equal; lra.
  - rewrite decide_False by tauto. unfold Dict.get_or.
    by rewrite get_setitem_ne.
Qed.

Lemma dotvecmat_hits_row A i (xi : R) k :
  Dict.wf A → diagonal A →
  omap (dotvecmat_hit k) ((λ e, ((i, xi), e)) <$> A) =
    if decide (i = k)
    then match Dict.get A (k, k) with Some a => [xi * a] | None => [] end
    else [].
Proof.
  unfold Dict.wf, Dict.keys, diagonal. intros Hwf Hdiag.
  induction Hdiag as [|[[j k'] a] A Hjk _ IH]; csimpl; [by case_decide|].
  simpl in Hjk. subst k'. csimpl in Hwf.
  apply NoDup_cons in Hwf as [Hfresh Hwf]. rewrite (IH Hwf). clear IH.
  destruct (decide (i = j ∧ j = k)) as [[-> ->]|Hno].
  - rewrite !decide_True by done.
    apply (get_None (V:=R)) in Hfresh. by rewrite Hfresh.
  - destruct (decide (i = k)) as [->|]; [|done].
    rewrite decide_False; [done|]. intros [= ->]. by apply Hno.
Qed.

Lemma dotvecmat_hits x A k :
  Dict.wf x → Dict.wf A → diagonal A →
  omap (dotvecmat_hit k) (product x A) =
    match Dict.get x k, Dict.get A (k, k) with
    | Some xk, Some a => [xk * a]
    | _, _ => []
    end.
Proof.
  intros Hx HA Hdiag. unfold Dict.wf, Dict.keys in Hx.
  induction x as [|[i xi] x IH]; [done|]. csimpl in Hx.
  apply NoDup_cons in Hx as [Hfresh Hx]. specialize (IH Hx).
  rewrite product_cons, omap_app, dotvecmat_hits_row, IH by done.
  cbn [Dict.get]. destruct (decide (i = k)) as [->|Hne]; [|done].
  apply (get_None (V:=R)) in Hfresh. rewrite Hfresh.
  destruct (Dict.get A (k, k)); by rewrite ?app_nil_r.
Qed.
End dotvecmat_facts.

(** X11.  The keys of [dotvecmat x A] are right whatever the values are: [k]
    is a key of the result exactly when [A] has an entry [(i, k)] whose row
    index [i] is a key of [x]. *)
Theorem dotvecmat_keys {K : Type} `{EqDecision K}
    (x : list (K * R)) (A : list ((K * K) * R)) (k : K) :
  is_Some (Dict.get (dotvecmat x A) k) ↔
    ∃ i, is_Some (Dict.get x i) ∧ is_Some (Dict.get A (i, k)).
Proof.
  unfold dotvecmat. rewrite dotvecmat_fold_keys. split.
  - intros [[? [=]]|(i & xi & a & [Hx HA]%elem_of_product)].
    exists i. rewrite !get_is_Some, !elem_of_keys. eauto.
  - intros (i & [xi Hx]%get_is_Some%elem_of_keys & [a HA]%get_is_Some%elem_of_keys).
    right. exists i, xi, a. by apply elem_of_product.
Qed.

(** X12.  On a matrix with entries on the diagonal only, [dotvecmat] is the
    vector-matrix product: key [k] holds [x[k] * A[(k, k)]] when both are
    present and is absent otherwise. *)
Theorem dotvecmat_diagonal {K : Type} `{EqDecision K}
    (x : list (K * R)) (A : list ((K * K) * R)) (k : K) :
  Dict.wf x → Dict.wf A → diagonal A →
  Dict.get (dotvecmat x A) k =
    xk ← Dict.get x k; a ← Dict.get A (k, k); Some (xk * a).
Proof.
  intros Hx HA Hdiag. unfold dotvecmat. rewrite dotvecmat_fold_diag.
  - rewrite dotvecmat_hits by done.
    destruct (Dict.get x k) as [xk|]; [|done].
    destruct (Dict.get A (k, k)) as [a|]; [|done].
    csimpl. f_equal. unfold Dict.get_or. simpl. lra.
  - apply Forall_forall. intros [[i xi] [[j k'] a]] [_ Hin]%elem_of_product.
    apply (proj1 (Forall_forall _ _) Hdiag _ Hin).
Qed.

Lemma dotvecmat_diagonal_witness :
  Dict.get (dotvecmat [(0%Z, 1); (1%Z, 2); (2%Z, 3)] A_inv_doc) 1%Z =
    xk ← Dict.get [(0%Z, 1); (1%Z, 2); (2%Z, 3)] 1%Z;
    a ← Dict.get A_inv_doc (1, 1)%Z; Some (xk * a).
Proof.
  apply (dotvecmat_diagonal [(0%Z, 1); (1%Z, 2); (2%Z, 3)] A_inv_doc 1%Z).
  - unfold Dict.wf. apply (bool_decide_unpack _). by vm_compute.
  - unfold Dict.wf. apply (bool_decide_unpack _). by vm_compute.
  - unfold diagonal, A_inv_doc. by repeat constructor.
Defined.

(** ** More on [sherman_morrison] *)

Section sherman_morrison_more.
Context {K : Type} `{EqDecision K}.
Implicit Types (A : list ((K * K) * R)) (u v : list (K * R)).

Lemma product_nil_r {X Y : Type} (l : list X) : product l (@nil Y) = [].
Proof. induction l as [|a l IH]; [done|]. by rewrite product_cons, IH. Qed.

Lemma matmul2d_nil_r A : matmul2d A [] = [].
Proof. unfold matmul2d. by rewrite product_nil_r. Qed.

Lemma outer_nil_r u : outer u [] = [].
Proof. unfold outer. by rewrite product_nil_r. Qed.

Lemma keys_setitem_prefix {V : Type} (d : list ((K * K) * V)) k w :
  Dict.keys d `prefix_of` Dict.keys (Dict.setitem d k w).
Proof.
  destruct (decide (k ∈ Dict.keys d)) as [Hin|Hin].
  - by rewrite keys_setitem_present.
  - rewrite keys_setitem_absent by done. by apply prefix_app_r.
Qed.

(** The update loop only assigns entries: keys stay where they are, new ones
    are added behind them, and no key comes to occur twice. *)
Lemma sherman_morrison_loop_keys den (corr : list ((K * K) * R)) A A' :
  foldM (sherman_morrison_step den) A corr = Some A' →
  Dict.keys A `prefix_of` Dict.keys A' ∧ (Dict.wf A → Dict.wf A').
Proof.
  revert A. induction corr as [|[k c] corr IH]; intros A; csimpl.
  { by intros [= ->]. }
  destruct (truediv c den) as [q|]; csimpl; [|done].
  intros [Hpre Hwf]%IH. split.
  - etrans; [apply keys_setitem_prefix | done].
  - intros HA. by apply Hwf, wf_setitem.
Qed.
End sherman_morrison_more.

(** X13.  With an empty [u] or an empty [v] the correction is empty and
    [sherman_morrison] returns [A_inv] as it was. *)
Theorem sherman_morrison_empty {K : Type} `{EqDecision K}
    (A_inv : list ((K * K) * R)) (u v : list (K * R)) :
  sherman_morrison A_inv [] v = Some A_inv ∧
  sherman_morrison A_inv u [] = Some A_inv.
Proof.
  unfold sherman_morrison. split.
  - change (outer [] v) with (@nil ((K * K) * R)). by rewrite matmul2d_nil_r.
  - by rewrite outer_nil_r, matmul2d_nil_r.
Qed.

(** X14.  [sherman_morrison] never removes or moves an entry of [A_inv]: the
    keys of [A_inv] are the first keys, in order, of the dict it returns,
    which has no repeated key when [A_inv] has none. *)
Theorem sherman_morrison_keeps_keys {K : Type} `{EqDecision K}
    (A_inv : list ((K * K) * R)) (u v : list (K * R)) :
  match sherman_morrison A_inv u v with
  | Some A' =>
      Dict.keys A_inv `prefix_of` Dict.keys A' ∧ (Dict.wf A_inv → Dict.wf A')
  | None => True
  end.
Proof.
  destruct (sherman_morrison A_inv u v) as [A'|] eqn:Hsm; [|done].
  by eapply sherman_morrison_loop_keys.
Qed.

(** ** More on [softmax] *)

Section softmax_more.
Context {K : Type} `{EqDecision K}.
Implicit Types (y : list (K * R)).

Lemma Rsum_scal {X : Type} (f : X → R) (l : list X) t :
  Rsum ((λ a, t * f a) <$> l) = t * Rsum (f <$> l).
Proof. induction l as [|a l IH]; csimpl; [lra|]. rewrite IH. lra. Qed.

Lemma Rsum_ge_term (l : list R) x :
  Forall (λ v, 0 < v) l → x ∈ l → x <= Rsum l.
Proof.
  intros Hpos. induction Hpos as [|v l Hv Hl IH]; [by intros ?%elem_of_nil|].
  assert (0 <= Rsum l) by (clear -Hl; induction Hl; simpl; lra).
  simpl. intros [->|Hin]%elem_of_cons; [lra|]. specialize (IH Hin). lra.
Qed.

Lemma get_fmap_values {V W : Type} (f : V → W) (d : list (K * V)) c :
  Dict.get ((λ '(c, p), (c, f p)) <$> d) c = f <$> Dict.get d c.
Proof.
  induction d as [|[c0 p0] d IH]; csimpl; [done|]. by case_decide.
Qed.

(** The shift by the maximum cancels: every score [p] becomes
    [exp p / Σ exp]. *)
Lemma softmax_closed_form y :
  Dict.wf y → y ≠ [] →
  0 < Rsum (exp <$> Dict.values y) ∧
  softmax y =
    Some ((λ '(c, p), (c, exp p / Rsum (exp <$> Dict.values y))) <$> y).
Proof.
  intros Hwf Hne.
  destruct (softmax_value y Hwf Hne) as (m & total & Hpos & Htot & ->).
  assert (total = exp (- m) * Rsum (exp <$> Dict.values y)) as Hscal.
  { rewrite Htot. unfold Dict.values. rewrite <- Rsum_scal, <- list_fmap_compose.
    f_equal. apply list_fmap_ext. intros _ [c p] _. simpl.
    rewrite <- exp_plus. f_equal. lra. }
  pose proof (exp_pos (- m)) as Hm.
  assert (0 < Rsum (exp <$> Dict.values y)) as HS by nra.
  split; [done|]. f_equal. apply list_fmap_ext. intros _ [c p] _. f_equal.
  rewrite Hscal. replace (p - m) with (p + - m) by lra. rewrite exp_plus.
  field. split; lra.
Qed.
End softmax_more.

(** X15.  Subtracting the maximum does not show in the result of [softmax]:
    a non-empty dict comes back with every score [p] replaced, in place, by
    [exp p / S], where [S] is the sum of [exp] over all the scores. *)
Theorem softmax_formula {K : Type} `{EqDecision K} (y : list (K * R)) :
  Dict.wf y → y ≠ [] →
  softmax y =
    Some ((λ '(c, p), (c, exp p / Rsum (exp <$> Dict.values y))) <$> y).
Proof. intros Hwf Hne. by apply softmax_closed_form. Qed.

Lemma softmax_formula_witness :
  softmax scores_doc =
    Some ((λ '(c, p), (c, exp p / Rsum (exp <$> Dict.values scores_doc)))
            <$> scores_doc).
Proof. by apply (softmax_formula scores_doc scores_doc_wf). Defined.

(** X16.  [softmax] preserves the order of the scores and never exceeds 1: a
    key with a score at most that of another key gets a value at most that of
    the other, and every value is at most 1. *)
Theorem softmax_order {K : Type} `{EqDecision K} (y : list (K * R)) :
  Dict.wf y →
  ∃ r, softmax y = Some r ∧
    Forall (λ q, q <= 1) (Dict.values r) ∧
    ∀ c1 c2 p1 p2,
      Dict.get y c1 = Some p1 → Dict.get y c2 = Some p2 → p1 <= p2 →
      ∃ q1 q2, Dict.get r c1 = Some q1 ∧ Dict.get r c2 = Some q2 ∧ q1 <= q2.
Proof.
  intros Hwf. destruct (decide (y = [])) as [->|Hne].
  { exists []. split_and!; [done | apply Forall_nil_2 | done]. }
  destruct (softmax_closed_form y Hwf Hne) as [HS ->].
  set (S := Rsum (exp <$> Dict.values y)) in *.
  eexists. split_and!; [done| |].
  - unfold Dict.values. rewrite <- list_fmap_compose.
    apply Forall_fmap, Forall_forall. intros [c p] Hin. simpl.
    assert (exp p <= S) as Hle.
    { apply Rsum_ge_term.
      - apply Forall_fmap, Forall_forall. intros ? _. apply exp_pos.
      - apply list_elem_of_fmap. exists p. split; [done|].
        apply list_elem_of_fmap. by exists (c, p). }
    apply Rmult_le_reg_r with S; [done|].
    unfold Rdiv. rewrite Rmult_assoc, Rinv_l by lra. lra.
  - intros c1 c2 p1 p2 H1 H2 Hle.
    exists (exp p1 / S), (exp p2 / S).
    rewrite !(get_fmap_values (λ p, exp p / S)), H1, H2.
    split_and!; [done..|].
    assert (exp p1 <= exp p2) as He.
    { destruct Hle as [Hlt| ->]; [left; by apply exp_increasing | lra]. }
    apply Rmult_le_compat_r; [|done]. left. by apply Rinv_0_lt_compat.
Qed.

Lemma softmax_order_witness :
  ∃ r, softmax scores_doc = Some r ∧
    Forall (λ q, q <= 1) (Dict.values r) ∧
    ∀ c1 c2 p1 p2,
      Dict.get scores_doc c1 = Some p1 → Dict.get scores_doc c2 = Some p2 →
      p1 <= p2 →
      ∃ q1 q2, Dict.get r c1 = Some q1 ∧ Dict.get r c2 = Some q2 ∧ q1 <= q2.
Proof. apply (softmax_order scores_doc scores_doc_wf). Defined.

(** ** [minkowski_distance] *)

Section minkowski_facts.
Context {K : Type} `{EqDecision K}.
Implicit Types (a b : list (K * R)) (ks : list K) (p : nat).

Lemma minkowski_Rsum ks a b p :
  minkowski_distance ks a b p =
    Rsum ((λ k, Rabs (Dict.get_or a k 0 - Dict.get_or b k 0) ^ p) <$> ks).
Proof. apply py_sum_Rsum. Qed.



Lemma Rsum_zero_all (l : list R) : Forall (λ v, v = 0) l → Rsum l = 0.
Proof. induction 1; simpl; lra. Qed.

Lemma Rsum_nonneg (l : list R) : Forall (λ v, 0 <= v) l → 0 <= Rsum l.
Proof. induction 1; simpl; lra. Qed.

Lemma minkowski_terms_nonneg ks a b p :
  Forall (λ v, 0 <= v)
    ((λ k, Rabs (Dict.get_or a k 0 - Dict.get_or b k 0) ^ p) <$> ks).
Proof.
  apply Forall_fmap, Forall_forall. intros k _. simpl.
  apply pow_le, Rabs_pos.
Qed.
End minkowski_facts.



(** X18.  For a natural exponent [p], [minkowski_distance] is never
    negative, and for [p >= 1] it is 0 from a vector to itself. *)
Theorem minkowski_distance_nonneg {K : Type} `{EqDecision K}
    (a b : list (K * R)) (ks : list K) (p : nat) :
  0 <= minkowski_distance ks a b p ∧
  (p ≠ 0%nat → minkowski_distance ks a a p = 0).
Proof.
  rewrite !minkowski_Rsum. split.
  - apply Rsum_nonneg, minkowski_terms_nonneg.
  - intros Hp. apply Rsum_zero_all, Forall_fmap, Forall_forall.
    intros k _. simpl. rewrite Rminus_diag, Rabs_R0. apply pow_i. lia.
Qed.

(** X19.  With the exponent [p = 0] every key of the set counts for 1, also
    where the two vectors agree ([0 ** 0] is 1): the result is the number of
    keys summed over. *)
Theorem minkowski_distance_p0 {K : Type} `{EqDecision K}
    (a b : list (K * R)) (ks : list K) :
  minkowski_distance ks a b 0 = INR (length ks).
Proof.
  rewrite minkowski_Rsum. induction ks as [|k ks IH]; [done|].
  rewrite fmap_cons, length_cons, S_INR, <- IH. simpl. lra.
Qed.

(** X20.  [softmax] does not see a constant added to every score: the dict
    with all scores shifted by [t] gives the same result. *)
Theorem softmax_shift {K : Type} `{EqDecision K} (y : list (K * R)) (t : R) :
  Dict.wf y →
  softmax ((λ '(c, p), (c, p + t)) <$> y) = softmax y.
Proof.
  intros Hwf. destruct (decide (y = [])) as [->|Hne]; [done|].
  set (y' := (λ '(c, p), (c, p + t)) <$> y).
  assert (Dict.wf y') as Hwf'.
  { unfold Dict.wf, Dict.keys, y'. rewrite <- list_fmap_compose.
    erewrite list_fmap_ext; [apply Hwf|]. by intros _ [c p] _. }
  assert (y' ≠ []) as Hne' by (by destruct y).
  destruct (softmax_closed_form y Hwf Hne) as [HS ->].
  destruct (softmax_closed_form y' Hwf' Hne') as [HS' ->].
  assert (Rsum (exp <$> Dict.values y') = exp t * Rsum (exp <$> Dict.values y))
    as Hscal.
  { unfold Dict.values, y'. rewrite <- Rsum_scal, <- !list_fmap_compose.
    f_equal. apply list_fmap_ext. intros _ [c p] _. simpl.
    rewrite exp_plus. lra. }
  f_equal. unfold y' at 2. rewrite <- list_fmap_compose.
  apply list_fmap_ext. intros _ [c p] _. simpl. f_equal.
  rewrite Hscal, exp_plus. pose proof (exp_pos t). field. split; lra.
Qed.

Lemma softmax_shift_witness :
  softmax ((λ '(c, p), (c, p + 10)) <$> scores_doc) = softmax scores_doc.
Proof. apply (softmax_shift scores_doc 10 scores_doc_wf). Defined.

(** * Where the floats differ from exact arithmetic *)


(** C10, refuted as stated.  With scores 0 and 1000, [math.exp(0 - 1000)]
    underflows to 0.0 and the value left at the first key is 0.0, which is
    not strictly positive. *)
Lemma softmax_float_underflow :
  Float64.softmax [("a", 0); ("b", 1000)]%float
    = Some [("a", 0); ("b", 1)]%float.
Proof. by vm_compute. Qed.
